(** * wait-for-postgres: the readiness probe of testopenlineage/dbt

    A shallow embedding of [wait_for_postgres] (dbt/wait-for-postgres.py)
    and of the script's entry point.  The function talks to four things
    outside itself: [psycopg2.connect], [conn.close], [print] and
    [time.sleep].  Every such call is recorded, in program order, in a trace
    of events; the database client is an oracle that says, for each call,
    whether it returns or raises. *)

From Stdlib Require Import ZArith Lia.
From stdpp Require Import base list strings pretty.

Local Open Scope string_scope.
Local Open Scope list_scope.
Local Open Scope nat_scope.

(** ** Exceptions *)

(** The only exception class the program names is
    [psycopg2.OperationalError].  [OperationalError] stands for an instance
    of that class (or of a subclass of it); [NonOperational cls] for an
    instance of any class [cls] outside it. *)
Inductive exn : Type :=
| OperationalError
| NonOperational (cls : string).

(** The test made by the clause [except psycopg2.OperationalError]. *)
Definition isinstance_OperationalError (e : exn) : bool :=
  match e with
  | OperationalError => true
  | NonOperational _ => false
  end.

(** ** The outside world *)

Definition handle := nat.

(** The keyword arguments of [psycopg2.connect]. *)
Record conninfo : Type := ConnInfo {
  host : string;
  database : string;
  user : string;
  password : string
}.

Inductive event : Type :=
| EConnect (kw : conninfo) (r : handle + exn)
    (* psycopg2.connect with keywords [kw]: returned connection [h], or raised [e] *)
| EClose (h : handle) (r : option exn)
    (* conn.close() on [h]: returned ([None]) or raised [e] *)
| EPrint (line : string)
| ESleep (seconds : Z).

(** The client library is opaque to the program.  Its behaviour is given per
    call: [connect_raises n] is what the [n]-th call of [psycopg2.connect]
    (counting from 0) does, [None] for returning a connection; the connection
    returned by the [n]-th call is handle [n], and [close_raises n] is what
    [close()] does on it. *)
Record client : Type := Client {
  connect_raises : nat → option exn;
  close_raises : handle → option exn
}.

(** What an attempt (open, then close) comes to. *)
Inductive attempt_outcome : Type :=
| Succeeds
| ConnectFails (e : exn)
| CloseFails (e : exn).

Definition outcome (c : client) (i : nat) : attempt_outcome :=
  match connect_raises c i with
  | Some e => ConnectFails e
  | None =>
      match close_raises c i with
      | Some e => CloseFails e
      | None => Succeeds
      end
  end.

(** ** Observations on a trace *)

Definition is_connect (ev : event) : bool :=
  match ev with EConnect _ _ => true | _ => false end.

(** Number of calls of [psycopg2.connect]. *)
Definition attempts (t : list event) : nat :=
  length (filter (λ ev, is_connect ev) t).

(** The pauses taken, in order. *)
Definition pauses (t : list event) : list Z :=
  omap (λ ev, match ev with ESleep s => Some s | _ => None end) t.

(** The lines written to the console, in order. *)
Definition console (t : list event) : list string :=
  omap (λ ev, match ev with EPrint l => Some l | _ => None end) t.

(** The handles that are open after the trace: returned by a [connect] and
    not yet closed by a [close()] that returned.  A [close()] that raises
    has not released its handle. *)
Fixpoint open_after (opened : list handle) (t : list event) : list handle :=
  match t with
  | [] => opened
  | EConnect _ (inl h) :: t' => open_after (opened ++ [h]) t'
  | EClose h None :: t' =>
      open_after (filter (λ h', h' ≠ h) opened) t'
  | _ :: t' => open_after opened t'
  end.

Definition open_handles (t : list event) : list handle := open_after [] t.

(** Calls of [close()] on handle [h], whatever they did. *)
Definition is_close_of (h : handle) (ev : event) : bool :=
  match ev with EClose h' _ => bool_decide (h' = h) | _ => false end.

Definition closes_of (h : handle) (t : list event) : nat :=
  length (filter (λ ev, is_close_of h ev) t).

(** ** Statements *)

(** How a statement completes: normally (with a value, for an expression),
    by [return b], or by raising. *)
Inductive completion (A : Type) : Type :=
| Normal (a : A)
| Returned (b : bool)
| Raised (e : exn).
Arguments Normal {A} a.
Arguments Returned {A} b.
Arguments Raised {A} e.

Definition M (A : Type) : Type := list event → completion A * list event.

Global Instance M_ret : MRet M := λ A a t, (Normal a, t).

Global Instance M_bind : MBind M := λ A B f m t,
  match m t with
  | (Normal a, t') => f a t'
  | (Returned b, t') => (Returned b, t')
  | (Raised e, t') => (Raised e, t')
  end.

Definition return_ {A} (b : bool) : M A := λ t, (Returned b, t).

(** [print] and [time.sleep] are taken to return: the program gives them a
    string and the constant 2, and nothing in it handles their failure. *)

Definition print (line : string) : M unit := λ t, (Normal (), t ++ [EPrint line]).

Definition sleep (seconds : Z) : M unit := λ t, (Normal (), t ++ [ESleep seconds]).

Definition connect (c : client) (kw : conninfo) : M handle := λ t,
  let h := attempts t in
  match connect_raises c h with
  | Some e => (Raised e, t ++ [EConnect kw (inr e)])
  | None => (Normal h, t ++ [EConnect kw (inl h)])
  end.

Definition close (c : client) (h : handle) : M unit := λ t,
  match close_raises c h with
  | Some e => (Raised e, t ++ [EClose h (Some e)])
  | None => (Normal (), t ++ [EClose h None])
  end.

(** [try: m except <class>: handler] *)
Definition try_except {A} (m : M A) (catches : exn → bool) (handler : M A) : M A :=
  λ t,
  match m t with
  | (Raised e, t') => if catches e then handler t' else (Raised e, t')
  | r => r
  end.

(** [for x in xs: body x] *)
Fixpoint for_in (xs : list nat) (body : nat → M unit) : M unit :=
  match xs with
  | [] => mret ()
  | x :: xs' => body x ;; for_in xs' body
  end.

(** [range(n)] *)
Definition range (n : nat) : list nat := seq 0 n.

(** What a call of a function gives its caller. *)
Inductive result : Type :=
| Return (b : bool)
| ReturnNone
| Raise (e : exn).

Definition result_of (k : completion unit) : result :=
  match k with
  | Normal _ => ReturnNone
  | Returned b => Return b
  | Raised e => Raise e
  end.

Definition call (m : M unit) (t : list event) : result * list event :=
  let (k, t') := m t in (result_of k, t').

(** ** The program *)

Definition postgres_kw : conninfo :=
  {| host := "postgres"; database := "dbt_test";
     user := "dbt_user"; password := "dbt_password" |}.

Definition ready_line : string := "PostgreSQL is ready!".
Definition failed_line : string := "Failed to connect to PostgreSQL".

(** f"Waiting for PostgreSQL... (attempt {attempt + 1}/{max_retries})" *)
Definition waiting_line (attempt max_retries : nat) : string :=
  "Waiting for PostgreSQL... (attempt " +:+ pretty (attempt + 1) +:+ "/"
    +:+ pretty max_retries +:+ ")".

Section Probe.
(** The two locals that [wait_for_postgres] sets on entry and never
    assigns again. *)
Variable max_retries : nat.
Variable retry_interval : Z.
Variable psycopg2 : client.

(** The body of the [for] loop. *)
Definition iteration (attempt : nat) : M unit :=
  try_except
    (conn ← connect psycopg2 postgres_kw;
     close psycopg2 conn;;
     print ready_line;;
     return_ true)
    isinstance_OperationalError
    (print (waiting_line attempt max_retries);;
     sleep retry_interval).

Definition probe_body : M unit :=
  for_in (range max_retries) iteration;;
  print failed_line;;
  return_ false.

Definition probe : result * list event := call probe_body [].
End Probe.

(** [wait_for_postgres()], against a given client. *)
Definition wait_for_postgres (psycopg2 : client) : result * list event :=
  probe 30 2 psycopg2.

(** [if __name__ == "__main__": wait_for_postgres()]: the value of the call
    is an expression statement, dropped.  A script that runs to its end
    exits with status 0; an exception nobody catches ends it with status
    1. *)
Definition main (psycopg2 : client) : Z * list event :=
  match wait_for_postgres psycopg2 with
  | (Return _, t) => (0%Z, t)
  | (ReturnNone, t) => (0%Z, t)
  | (Raise _, t) => (1%Z, t)
  end.

(** ** The loop as a transition system *)

(** [Looping attempt t]: the iterator of [range(max_retries)] is about to
    be asked for its next element, which will be [attempt]; [Done r t]: the
    call is over. *)
Inductive config : Type :=
| Looping (attempt : nat) (t : list event)
| Done (r : result) (t : list event).

Section Machine.
Variable max_retries : nat.
Variable retry_interval : Z.
Variable psycopg2 : client.

Definition step (cfg : config) : config :=
  match cfg with
  | Looping attempt t =>
      if (attempt <? max_retries)%nat then
        match iteration max_retries retry_interval psycopg2 attempt t with
        | (Normal _, t') => Looping (S attempt) t'
        | (Returned b, t') => Done (Return b) t'
        | (Raised e, t') => Done (Raise e) t'
        end
      else Done (Return false) (t ++ [EPrint failed_line])
  | Done r t => Done r t
  end.

Definition run (fuel : nat) : config := Nat.iter fuel step (Looping 0 []).
End Machine.

(** ** What one iteration does *)

(** Whether the [except] clause takes the attempt's exception, so that the
    loop goes on. *)
Definition retried (c : client) (i : nat) : bool :=
  match outcome c i with
  | Succeeds => false
  | ConnectFails e | CloseFails e => isinstance_OperationalError e
  end.

Section Iteration.
Variable max_retries : nat.
Variable retry_interval : Z.
Variable c : client.

Definition handler_trace (i : nat) (e : exn) : list event :=
  if isinstance_OperationalError e
  then [EPrint (waiting_line i max_retries); ESleep retry_interval]
  else [].

Definition iteration_trace (i : nat) : list event :=
  match outcome c i with
  | Succeeds => [EConnect postgres_kw (inl i); EClose i None; EPrint ready_line]
  | ConnectFails e => EConnect postgres_kw (inr e) :: handler_trace i e
  | CloseFails e =>
      EConnect postgres_kw (inl i) :: EClose i (Some e) :: handler_trace i e
  end.

Definition iteration_completion (i : nat) : completion unit :=
  match outcome c i with
  | Succeeds => Returned true
  | ConnectFails e | CloseFails e =>
      if isinstance_OperationalError e then Normal () else Raised e
  end.

(** The events of attempts [0 .. n-1], one after the other. *)
Definition iterations_trace (n : nat) : list event :=
  flat_map iteration_trace (seq 0 n).
End Iteration.

(** The least attempt below [n] that is not retried, if there is one: the
    iteration in which the loop is left. *)
Fixpoint first_stop (c : client) (n : nat) : option nat :=
  match n with
  | 0 => None
  | S n' =>
      match first_stop c n' with
      | Some k => Some k
      | None => if retried c n' then None else Some n'
      end
  end.

(** The number of attempts that end in a retry when the loop is given [n]
    rounds. *)
Definition retries (c : client) (n : nat) : nat := default n (first_stop c n).

(** ** Observations that refer to the client *)

(** The attempts made in [t] that ended in a retry. *)
Definition failed_attempts (c : client) (t : list event) : list nat :=
  filter (λ i, retried c i) (seq 0 (attempts t)).

(** Whether [close()] raised on the connection of attempt [i]. *)
Definition close_failed (c : client) (i : nat) : bool :=
  match outcome c i with CloseFails _ => true | _ => false end.

(** The line that goes with the way the call ends. *)
Definition final_lines (r : result) : list string :=
  match r with
  | Return true => [ready_line]
  | Return false => [failed_line]
  | _ => []
  end.

(** How often [line] was printed. *)
Definition printed (line : string) (t : list event) : nat :=
  length (filter (λ l, l = line) (console t)).

(** ** Sample clients *)

Definition always_up : client :=
  {| connect_raises := λ _, None; close_raises := λ _, None |}.

Definition always_down : client :=
  {| connect_raises := λ _, Some OperationalError; close_raises := λ _, None |}.

(** Down for the first [k] calls, up from then on. *)
Definition up_after (k : nat) : client :=
  {| connect_raises := λ n, if (n <? k)%nat then Some OperationalError else None;
     close_raises := λ _, None |}.

(** As [up_after 2] for the first 30 calls, and different after them and
    on handles that are never handed out. *)
Definition up_after_2_then_gone : client :=
  {| connect_raises := λ n,
       if (n <? 2)%nat then Some OperationalError
       else if (n <? 30)%nat then None
       else Some (NonOperational "MemoryError");
     close_raises := λ h, if (h <? 2)%nat then Some OperationalError else None |}.

(** Accepts every connection; [close()] raises [OperationalError] on the
    first one only. *)
Definition first_close_fails : client :=
  {| connect_raises := λ _, None;
     close_raises := λ h, if (h =? 0)%nat then Some OperationalError else None |}.

(** Accepts every connection; [close()] always raises [OperationalError]. *)
Definition close_always_fails : client :=
  {| connect_raises := λ _, None; close_raises := λ _, Some OperationalError |}.

(** Down once, then [connect] raises something else. *)
Definition down_then_interrupted : client :=
  {| connect_raises := λ n,
       if (n =? 0)%nat then Some OperationalError
       else Some (NonOperational "KeyboardInterrupt");
     close_raises := λ _, None |}.


(** As [up_after 2] up to the attempt that succeeds, and failing for
    another reason from the next call on, still within the bound. *)
Definition up_after_2_then_broken : client :=
  {| connect_raises := λ n,
       if (n <? 2)%nat then Some OperationalError
       else if (n =? 2)%nat then None
       else Some (NonOperational "InterfaceError");
     close_raises := λ _, None |}.

(** ** Further observations on a trace *)

(** The seconds spent in [time.sleep]. *)
Definition total_sleep (t : list event) : Z := foldr Z.add 0%Z (pauses t).

(** Whether every connection is handed to [close()] as soon as it has been
    returned: [pending] is the connection returned by the last event, if
    that was a [connect] that returned.  With a connection pending the only
    event allowed is the [close()] of that connection, and a [close()] is
    allowed only then. *)
Fixpoint closes_at_once (pending : option handle) (t : list event) : bool :=
  match t, pending with
  | [], None => true
  | EConnect _ (inl h) :: t', None => closes_at_once (Some h) t'
  | EConnect _ (inr _) :: t', None => closes_at_once None t'
  | EClose h _ :: t', Some h' => bool_decide (h = h') && closes_at_once None t'
  | EPrint _ :: t', None => closes_at_once None t'
  | ESleep _ :: t', None => closes_at_once None t'
  | _, _ => false
  end.

(** * Proofs *)

(** ** Sample runs *)

Example wait_up :
  wait_for_postgres always_up =
  (Return true, [EConnect postgres_kw (inl 0); EClose 0 None; EPrint ready_line]).
Proof. vm_compute. reflexivity. Qed.

Example wait_up_after_2 :
  wait_for_postgres (up_after 2) =
  (Return true,
   [EConnect postgres_kw (inr OperationalError);
    EPrint "Waiting for PostgreSQL... (attempt 1/30)"; ESleep 2;
    EConnect postgres_kw (inr OperationalError);
    EPrint "Waiting for PostgreSQL... (attempt 2/30)"; ESleep 2;
    EConnect postgres_kw (inl 2); EClose 2 None; EPrint ready_line]).
Proof. vm_compute. reflexivity. Qed.

(** ** Observations distribute over concatenation *)

Lemma attempts_app (t u : list event) :
  attempts (t ++ u) = attempts t + attempts u.
Proof. unfold attempts. by rewrite filter_app, length_app. Qed.

Lemma pauses_app (t u : list event) : pauses (t ++ u) = pauses t ++ pauses u.
Proof. apply omap_app. Qed.

Lemma console_app (t u : list event) : console (t ++ u) = console t ++ console u.
Proof. apply omap_app. Qed.

Lemma closes_of_app (h : handle) (t u : list event) :
  closes_of h (t ++ u) = closes_of h t + closes_of h u.
Proof. unfold closes_of. by rewrite filter_app, length_app. Qed.

Lemma open_after_app (o : list handle) (t u : list event) :
  open_after o (t ++ u) = open_after (open_after o t) u.
Proof.
  revert o. induction t as [|ev t IH]; intros o; [done|].
  destruct ev as [kw [h|e]|h [e|]|l|s]; simpl; apply IH.
Qed.

Lemma filter_all {A} (P : A → Prop) `{!∀ x, Decision (P x)} (l : list A) :
  Forall P l → filter P l = l.
Proof.
  induction 1 as [|x l Hx _ IH]; [done|].
  by rewrite filter_cons_True, IH.
Qed.

(** ** The monad *)

Lemma for_in_app (xs ys : list nat) (body : nat → M unit) (t : list event) :
  for_in (xs ++ ys) body t = (for_in xs body;; for_in ys body) t.
Proof.
  revert t. induction xs as [|x xs IH]; intros t; simpl.
  - reflexivity.
  - unfold mbind, M_bind. destruct (body x t) as [[[]|b|e] t']; [|done..].
    rewrite IH. reflexivity.
Qed.

(** ** One iteration *)

Section IterationFacts.
Variable max_retries : nat.
Variable retry_interval : Z.
Variable c : client.

Local Abbreviation body := (iteration max_retries retry_interval c).
Local Abbreviation events := (iteration_trace max_retries retry_interval c).
Local Abbreviation completes := (iteration_completion c).

Lemma iteration_spec (i : nat) (t : list event) :
  attempts t = i →
  body i t = (completes i, t ++ events i).
Proof.
  intros <-.
  unfold iteration, try_except, iteration_completion,
    iteration_trace, handler_trace, outcome, mbind, M_bind,
    connect, close, print, sleep, return_.
  destruct (connect_raises c (attempts t)) as [e|].
  - destruct (isinstance_OperationalError e); simpl;
      rewrite <- ?app_assoc; reflexivity.
  - destruct (close_raises c (attempts t)) as [e|]; simpl.
    + destruct (isinstance_OperationalError e); simpl;
        rewrite <- ?app_assoc; reflexivity.
    + rewrite <- !app_assoc. reflexivity.
Qed.

Lemma iteration_completion_retried (i : nat) :
  retried c i = true → completes i = Normal ().
Proof.
  unfold retried, iteration_completion.
  destruct (outcome c i) as [|e|e]; [done|..];
    by destruct (isinstance_OperationalError e).
Qed.

Lemma iteration_completion_stop (i : nat) :
  retried c i = false → completes i ≠ Normal ().
Proof.
  unfold retried, iteration_completion.
  destruct (outcome c i) as [|e|e]; [done|..];
    by destruct (isinstance_OperationalError e).
Qed.

Lemma attempts_iteration_trace (i : nat) : attempts (events i) = 1.
Proof.
  unfold iteration_trace, handler_trace.
  destruct (outcome c i) as [|e|e]; [done|..];
    by destruct (isinstance_OperationalError e).
Qed.

Lemma pauses_iteration_trace (i : nat) :
  pauses (events i) = if retried c i then [retry_interval] else [].
Proof.
  unfold retried, iteration_trace, handler_trace.
  destruct (outcome c i) as [|e|e]; [done|..];
    by destruct (isinstance_OperationalError e).
Qed.

Lemma console_iteration_trace (i : nat) :
  console (events i) =
  if retried c i then [waiting_line i max_retries]
  else match outcome c i with Succeeds => [ready_line] | _ => [] end.
Proof.
  unfold retried, iteration_trace, handler_trace.
  destruct (outcome c i) as [|e|e]; [done|..];
    by destruct (isinstance_OperationalError e).
Qed.
End IterationFacts.

(** ** Where the loop is left *)

Lemma first_stop_None_elim (c : client) (n : nat) :
  first_stop c n = None → ∀ i, i < n → retried c i = true.
Proof.
  induction n as [|n IH]; simpl; [intros; lia|].
  destruct (first_stop c n); [done|].
  destruct (retried c n) eqn:R; [|done].
  intros _ i Hi. destruct (decide (i = n)) as [->|]; [done|].
  apply IH; [done|lia].
Qed.

Lemma first_stop_Some (c : client) (n k : nat) :
  first_stop c n = Some k →
  k < n ∧ retried c k = false ∧ ∀ i, i < k → retried c i = true.
Proof.
  induction n as [|n IH]; simpl; [done|].
  destruct (first_stop c n) as [k'|] eqn:E.
  - intros [= ->]. destruct (IH eq_refl) as (? & ? & ?). split; [lia|done].
  - destruct (retried c n) eqn:R; [done|]. intros [= <-].
    split; [lia|]. split; [done|]. by apply first_stop_None_elim.
Qed.

Lemma first_stop_None (c : client) (n : nat) :
  first_stop c n = None ↔ ∀ i, i < n → retried c i = true.
Proof.
  split; [apply first_stop_None_elim|]. intros H.
  destruct (first_stop c n) as [k|] eqn:E; [|done].
  destruct (first_stop_Some _ _ _ E) as (? & Hk & _).
  rewrite H in Hk by done. done.
Qed.

Lemma first_stop_intro (c : client) (n k : nat) :
  k < n → retried c k = false → (∀ i, i < k → retried c i = true) →
  first_stop c n = Some k.
Proof.
  intros Hk Hstop Hpre.
  destruct (first_stop c n) as [k'|] eqn:E.
  - destruct (first_stop_Some _ _ _ E) as (? & Hk' & Hpre').
    destruct (lt_eq_lt_dec k k') as [[?|E']|?]; [|by rewrite E'|].
    + rewrite Hpre' in Hstop by done. done.
    + rewrite Hpre in Hk' by done. done.
  - rewrite first_stop_None in E. rewrite E in Hstop by done. done.
Qed.

(** ** The whole loop *)

Section LoopFacts.
Variable max_retries : nat.
Variable retry_interval : Z.
Variable c : client.

Local Abbreviation body := (iteration max_retries retry_interval c).
Local Abbreviation events := (iteration_trace max_retries retry_interval c).
Local Abbreviation prefix := (iterations_trace max_retries retry_interval c).
Local Abbreviation completes := (iteration_completion c).

Lemma prefix_S (n : nat) : prefix (S n) = prefix n ++ events n.
Proof.
  unfold iterations_trace. rewrite seq_S, flat_map_app. simpl.
  by rewrite app_nil_r.
Qed.

Lemma attempts_prefix (n : nat) : attempts (prefix n) = n.
Proof.
  induction n as [|n IH]; [done|].
  rewrite prefix_S, attempts_app, IH, attempts_iteration_trace. lia.
Qed.

Lemma pauses_prefix (n : nat) :
  (∀ i, i < n → retried c i = true) →
  pauses (prefix n) = replicate n retry_interval.
Proof.
  induction n as [|n IH]; intros H; [done|].
  rewrite prefix_S, pauses_app, IH, pauses_iteration_trace, H
    by first [lia | intros; apply H; lia].
  rewrite replicate_S_end. done.
Qed.

Lemma console_prefix (n : nat) :
  (∀ i, i < n → retried c i = true) →
  console (prefix n) = (λ i, waiting_line i max_retries) <$> seq 0 n.
Proof.
  induction n as [|n IH]; intros H; [done|].
  rewrite prefix_S, console_app, IH, console_iteration_trace, H
    by first [lia | intros; apply H; lia].
  rewrite seq_S, fmap_app. done.
Qed.

(** The loop over the first [n] attempts, from the empty trace: it runs
    up to the first attempt that is not retried, or through all of them. *)
Lemma for_in_spec (n : nat) :
  for_in (range n) body [] =
  match first_stop c n with
  | None => (Normal (), prefix n)
  | Some k => (completes k, prefix (S k))
  end.
Proof.
  unfold range. induction n as [|n IH]; [done|].
  rewrite seq_S, for_in_app. unfold mbind at 1, M_bind at 1.
  rewrite IH. simpl. destruct (first_stop c n) as [k|] eqn:E.
  - destruct (first_stop_Some _ _ _ E) as (_ & Hk & _).
    pose proof (iteration_completion_stop c k Hk).
    by destruct (completes k) as [[]| |].
  - unfold mbind, M_bind.
    rewrite (iteration_spec _ _ _ n) by apply attempts_prefix.
    rewrite <- prefix_S. destruct (retried c n) eqn:R.
    + by rewrite iteration_completion_retried.
    + pose proof (iteration_completion_stop c n R).
      by destruct (completes n) as [[]| |].
Qed.

(** The call, for any client. *)
Theorem probe_spec :
  probe max_retries retry_interval c =
  match first_stop c max_retries with
  | None => (Return false, prefix max_retries ++ [EPrint failed_line])
  | Some k => (result_of (completes k), prefix (S k))
  end.
Proof.
  unfold probe, call, probe_body. unfold mbind at 1, M_bind at 1.
  rewrite for_in_spec. destruct (first_stop c max_retries) as [k|] eqn:E.
  - destruct (first_stop_Some _ _ _ E) as (_ & Hk & _).
    pose proof (iteration_completion_stop c k Hk).
    by destruct (completes k) as [[]| |].
  - reflexivity.
Qed.
End LoopFacts.

(** ** The observations of a call *)

Section RunFacts.
Variable max_retries : nat.
Variable retry_interval : Z.
Variable c : client.

Local Abbreviation events := (iteration_trace max_retries retry_interval c).
Local Abbreviation prefix := (iterations_trace max_retries retry_interval c).
Local Abbreviation completes := (iteration_completion c).
Local Abbreviation the_probe := (probe max_retries retry_interval c).

Lemma retries_le : retries c max_retries ≤ max_retries.
Proof.
  unfold retries. destruct (first_stop c max_retries) as [k|] eqn:E; simpl; [|lia].
  apply first_stop_Some in E. lia.
Qed.

Lemma retries_retried (i : nat) :
  i < retries c max_retries → retried c i = true.
Proof.
  unfold retries. destruct (first_stop c max_retries) as [k|] eqn:E; simpl.
  - apply first_stop_Some in E as (_ & _ & H). apply H.
  - by apply first_stop_None.
Qed.

Lemma result_stop (k : nat) :
  retried c k = false →
  result_of (completes k) =
  match outcome c k with
  | Succeeds => Return true
  | ConnectFails e | CloseFails e => Raise e
  end.
Proof.
  unfold retried, iteration_completion.
  destruct (outcome c k) as [|e|e]; [done|..]; by intros ->.
Qed.

Lemma final_lines_stop (k : nat) :
  retried c k = false →
  final_lines (result_of (completes k)) =
  match outcome c k with Succeeds => [ready_line] | _ => [] end.
Proof.
  intros H. rewrite result_stop by done. by destruct (outcome c k).
Qed.

Lemma attempts_probe :
  attempts (snd the_probe) =
  match first_stop c max_retries with None => max_retries | Some k => S k end.
Proof.
  rewrite probe_spec. destruct (first_stop c max_retries); simpl.
  - apply attempts_prefix.
  - rewrite attempts_app, attempts_prefix.
    change (attempts [EPrint failed_line]) with 0. lia.
Qed.

Lemma pauses_probe :
  pauses (snd the_probe) = replicate (retries c max_retries) retry_interval.
Proof.
  pose proof retries_retried as Hr. revert Hr.
  rewrite probe_spec. unfold retries.
  destruct (first_stop c max_retries) as [k|] eqn:E; simpl; intros Hr.
  - apply first_stop_Some in E as (_ & Hk & _).
    rewrite prefix_S, pauses_app, pauses_prefix, pauses_iteration_trace, Hk by done.
    by rewrite app_nil_r.
  - rewrite pauses_app, pauses_prefix by done. by rewrite app_nil_r.
Qed.

Lemma console_probe :
  console (snd the_probe) =
  ((λ i, waiting_line i max_retries) <$> seq 0 (retries c max_retries))
    ++ final_lines (fst the_probe).
Proof.
  pose proof retries_retried as Hr. revert Hr.
  rewrite probe_spec. unfold retries.
  destruct (first_stop c max_retries) as [k|] eqn:E; simpl; intros Hr.
  - apply first_stop_Some in E as (_ & Hk & _).
    rewrite prefix_S, console_app, console_prefix, console_iteration_trace, Hk by done.
    by rewrite final_lines_stop.
  - by rewrite console_app, console_prefix.
Qed.

Lemma failed_attempts_probe :
  failed_attempts c (snd the_probe) = seq 0 (retries c max_retries).
Proof.
  pose proof retries_retried as Hr. revert Hr.
  unfold failed_attempts. rewrite attempts_probe. unfold retries.
  destruct (first_stop c max_retries) as [k|] eqn:E; cbn [from_option id];
    intros Hr.
  - apply first_stop_Some in E as (_ & Hk & _).
    rewrite seq_S, filter_app, (filter_cons_False _ k), filter_nil, app_nil_r
      by (rewrite Hk; exact id).
    apply filter_all, Forall_forall. intros i Hi%elem_of_seq.
    rewrite Hr; [done|lia].
  - apply filter_all, Forall_forall. intros i Hi%elem_of_seq.
    rewrite Hr; [done|lia].
Qed.

(** Attempt [k] takes place exactly when it is within the bound and all
    attempts before it were retried. *)
Lemma attempt_made (k : nat) :
  k < attempts (snd the_probe) ↔
  k < max_retries ∧ ∀ i, i < k → retried c i = true.
Proof.
  rewrite attempts_probe.
  destruct (first_stop c max_retries) as [s|] eqn:E.
  - apply first_stop_Some in E as (Hs & Hstop & Hpre). split.
    + intros Hk. split; [lia|]. intros i Hi. apply Hpre. lia.
    + intros [Hk Hall]. destruct (decide (k < S s)) as [|Hn]; [done|].
      rewrite Hall in Hstop by lia. done.
  - split.
    + intros Hk. split; [done|]. intros i Hi.
      eapply first_stop_None; [done|lia].
    + by intros [? _].
Qed.

Lemma retried_attempt_lt_retries (k : nat) :
  k < attempts (snd the_probe) → retried c k = true →
  k < retries c max_retries.
Proof.
  rewrite attempts_probe. unfold retries.
  destruct (first_stop c max_retries) as [s|] eqn:E; simpl; [|done].
  apply first_stop_Some in E as (_ & Hs & _). intros Hk Hr.
  destruct (decide (k = s)) as [->|]; [congruence|lia].
Qed.

Lemma raise_not_operational (e : exn) :
  fst the_probe = Raise e → isinstance_OperationalError e = false.
Proof.
  rewrite probe_spec. destruct (first_stop c max_retries) as [k|] eqn:E; [|done].
  apply first_stop_Some in E as (_ & Hk & _). simpl.
  rewrite result_stop by done. revert Hk. unfold retried.
  destruct (outcome c k); [done|by intros ? [= <-]..].
Qed.

(** The run stops in attempt [k] when that attempt is made and is not
    retried. *)
Lemma made_stop (k : nat) :
  k < attempts (snd the_probe) → retried c k = false →
  first_stop c max_retries = Some k.
Proof.
  intros [Hk Hpre]%attempt_made Hstop. by apply first_stop_intro.
Qed.
End RunFacts.

(** * The properties of the specification *)

(** ** Every attempt fails *)

(** C1, as the code has it.  When every attempt within the bound ends in an
    [OperationalError], the call returns [False] after exactly
    [max_retries] calls of [psycopg2.connect] and exactly [max_retries]
    pauses of [retry_interval] seconds: the handler sleeps after every
    failed attempt, the last one included.  With a bound of 1 that is one
    attempt and one pause. *)
Theorem C1_all_attempts_fail (max_retries : nat) (retry_interval : Z) (c : client) :
  (∀ i, i < max_retries → retried c i = true) →
  fst (probe max_retries retry_interval c) = Return false ∧
  attempts (snd (probe max_retries retry_interval c)) = max_retries ∧
  pauses (snd (probe max_retries retry_interval c)) =
    replicate max_retries retry_interval.
Proof.
  intros H. apply first_stop_None in H.
  split; [|split].
  - by rewrite probe_spec, H.
  - by rewrite attempts_probe, H.
  - rewrite pauses_probe. unfold retries. by rewrite H.
Qed.

Lemma C1_all_attempts_fail_witness :
  (∀ i, i < 30 → retried always_down i = true) ∧
  fst (wait_for_postgres always_down) = Return false ∧
  attempts (snd (wait_for_postgres always_down)) = 30 ∧
  pauses (snd (wait_for_postgres always_down)) = replicate 30 2%Z.
Proof.
  split; [intros; reflexivity|].
  apply (C1_all_attempts_fail 30 2 always_down). intros; reflexivity.
Defined.

(** C1 as the specification words it fails: against a server that is down
    for good, [wait_for_postgres] pauses 30 times, not 29, and with a bound
    of 1 the single failing attempt is followed by one pause, not none. *)
Lemma C1_counterexample :
  (fst (wait_for_postgres always_down) = Return false ∧
   attempts (snd (wait_for_postgres always_down)) = 30 ∧
   length (pauses (snd (wait_for_postgres always_down))) ≠ 30 - 1) ∧
  (fst (probe 1 2 always_down) = Return false ∧
   attempts (snd (probe 1 2 always_down)) = 1 ∧
   pauses (snd (probe 1 2 always_down)) ≠ []).
Proof. vm_compute. repeat split; discriminate. Qed.

(** ** Some failures, then success *)

(** C2.  When the first [k] attempts ([k < max_retries]) end in an
    [OperationalError] and attempt [k] opens and closes its connection, the
    call returns [True] after exactly [k + 1] calls of [psycopg2.connect]
    and exactly [k] pauses of [retry_interval] seconds; the opening and
    closing of that connection and the success line are the last events of
    the run, so nothing is attempted after the success.  For [k = 0] this is
    one attempt and no pause. *)
Theorem C2_fails_k_times_then_succeeds
    (max_retries : nat) (retry_interval : Z) (c : client) (k : nat) :
  k < max_retries →
  (∀ i, i < k → retried c i = true) →
  outcome c k = Succeeds →
  fst (probe max_retries retry_interval c) = Return true ∧
  attempts (snd (probe max_retries retry_interval c)) = k + 1 ∧
  pauses (snd (probe max_retries retry_interval c)) = replicate k retry_interval ∧
  ∃ pre,
    snd (probe max_retries retry_interval c) =
      pre ++ [EConnect postgres_kw (inl k); EClose k None; EPrint ready_line].
Proof.
  intros Hk Hpre Hok.
  assert (retried c k = false) as Hstop by (unfold retried; by rewrite Hok).
  pose proof (first_stop_intro c max_retries k Hk Hstop Hpre) as E.
  split; [|split; [|split]].
  - rewrite probe_spec, E. simpl. unfold iteration_completion. by rewrite Hok.
  - rewrite attempts_probe, E. lia.
  - rewrite pauses_probe. unfold retries. by rewrite E.
  - exists (iterations_trace max_retries retry_interval c k).
    rewrite probe_spec, E. simpl. rewrite prefix_S.
    unfold iteration_trace. by rewrite Hok.
Qed.

Lemma C2_fails_k_times_then_succeeds_witness :
  2 < 30 ∧
  (∀ i, i < 2 → retried (up_after 2) i = true) ∧
  outcome (up_after 2) 2 = Succeeds ∧
  fst (wait_for_postgres (up_after 2)) = Return true ∧
  attempts (snd (wait_for_postgres (up_after 2))) = 2 + 1 ∧
  pauses (snd (wait_for_postgres (up_after 2))) = replicate 2 2%Z ∧
  ∃ pre,
    snd (wait_for_postgres (up_after 2)) =
      pre ++ [EConnect postgres_kw (inl 2); EClose 2 None; EPrint ready_line].
Proof.
  assert (∀ i, i < 2 → retried (up_after 2) i = true) as H.
  { intros [|[|i]] Hi; [reflexivity..|lia]. }
  split; [lia|]. split; [exact H|]. split; [reflexivity|].
  apply (C2_fails_k_times_then_succeeds 30 2 (up_after 2) 2); [lia|exact H|reflexivity].
Defined.

(** ** Which exceptions are absorbed *)

(** C3.  Take an attempt that is made in the run and raises [e], from
    [psycopg2.connect] or from [close()].  The call never ends by raising
    an [OperationalError].  When [e] is an [OperationalError] it is caught:
    the attempt's progress line is printed, the pause is taken, the next
    attempt is made if the bound allows one, and the caller sees only the
    boolean.  When [e] is of any other class it is not caught: the call
    ends by raising [e], the raising call is the last event of the run, and
    no further attempt is made. *)
Theorem C3_only_OperationalError_is_absorbed
    (max_retries : nat) (retry_interval : Z) (c : client) (k : nat) (e : exn) :
  k < attempts (snd (probe max_retries retry_interval c)) →
  outcome c k = ConnectFails e ∨ outcome c k = CloseFails e →
  (∀ e', fst (probe max_retries retry_interval c) = Raise e' →
         isinstance_OperationalError e' = false) ∧
  if isinstance_OperationalError e
  then
    console (snd (probe max_retries retry_interval c)) !! k =
      Some (waiting_line k max_retries) ∧
    pauses (snd (probe max_retries retry_interval c)) !! k = Some retry_interval ∧
    (S k < max_retries →
     S k < attempts (snd (probe max_retries retry_interval c))) ∧
    fst (probe max_retries retry_interval c) ≠ Raise e
  else
    fst (probe max_retries retry_interval c) = Raise e ∧
    attempts (snd (probe max_retries retry_interval c)) = S k ∧
    ∃ pre, snd (probe max_retries retry_interval c) =
           pre ++ [match outcome c k with
                   | CloseFails _ => EClose k (Some e)
                   | _ => EConnect postgres_kw (inr e)
                   end].
Proof.
  intros Hmade Hraise. split; [apply raise_not_operational|].
  assert (retried c k = isinstance_OperationalError e) as Hr.
  { unfold retried. by destruct Hraise as [-> | ->]. }
  destruct (isinstance_OperationalError e) eqn:He.
  - pose proof (retried_attempt_lt_retries _ retry_interval _ _ Hmade Hr) as Hlt.
    split; [|split; [|split]].
    + rewrite console_probe, lookup_app_l by (by rewrite length_fmap, length_seq).
      by rewrite list_lookup_fmap, lookup_seq_lt.
    + rewrite pauses_probe. by apply lookup_replicate_2.
    + intros Hnext. apply attempt_made. split; [done|]. intros i Hi.
      destruct (decide (i = k)) as [->|]; [done|].
      apply (attempt_made max_retries retry_interval c k) in Hmade as [_ Hpre].
      apply Hpre. lia.
    + intros Habs%raise_not_operational. congruence.
  - pose proof (made_stop _ retry_interval _ _ Hmade Hr) as E.
    split; [|split].
    + rewrite probe_spec, E. simpl. rewrite result_stop by done.
      by destruct Hraise as [-> | ->].
    + by rewrite attempts_probe, E.
    + rewrite probe_spec, E. simpl. rewrite prefix_S.
      unfold iteration_trace, handler_trace.
      destruct Hraise as [-> | ->]; rewrite He.
      * by eexists.
      * eexists (_ ++ [_]). by rewrite <- app_assoc.
Qed.

Lemma C3_only_OperationalError_is_absorbed_witness :
  1 < attempts (snd (wait_for_postgres down_then_interrupted)) ∧
  outcome down_then_interrupted 1 =
    ConnectFails (NonOperational "KeyboardInterrupt") ∧
  fst (wait_for_postgres down_then_interrupted) =
    Raise (NonOperational "KeyboardInterrupt") ∧
  attempts (snd (wait_for_postgres down_then_interrupted)) = 2.
Proof.
  assert (1 < attempts (snd (wait_for_postgres down_then_interrupted))) as H1
    by (vm_compute; lia).
  assert (outcome down_then_interrupted 1 =
          ConnectFails (NonOperational "KeyboardInterrupt")) as H2
    by reflexivity.
  split; [exact H1|]. split; [exact H2|].
  destruct (C3_only_OperationalError_is_absorbed 30 2 down_then_interrupted 1
              (NonOperational "KeyboardInterrupt") H1 (or_introl H2))
    as (_ & Hr & Ha & _).
  split; [exact Hr|exact Ha].
Defined.

(** ** Connections left open *)

Section Handles.
Variable max_retries : nat.
Variable retry_interval : Z.
Variable c : client.

Local Abbreviation events := (iteration_trace max_retries retry_interval c).
Local Abbreviation prefix := (iterations_trace max_retries retry_interval c).
Local Abbreviation the_probe := (probe max_retries retry_interval c).

Lemma open_after_iteration (o : list handle) (i : nat) :
  i ∉ o →
  open_after o (events i) = if close_failed c i then o ++ [i] else o.
Proof.
  intros Hi. unfold iteration_trace, handler_trace, close_failed.
  destruct (outcome c i) as [|e|e]; simpl.
  - rewrite filter_app, filter_singleton_False by (try done; by intros H; apply H).
    rewrite app_nil_r. apply filter_all, Forall_forall. by intros h Hh ->.
  - by destruct (isinstance_OperationalError e).
  - by destruct (isinstance_OperationalError e).
Qed.

Lemma open_handles_prefix (n : nat) :
  open_handles (prefix n) = filter (λ i, close_failed c i) (seq 0 n).
Proof.
  unfold open_handles. induction n as [|n IH]; [done|].
  rewrite prefix_S, open_after_app, IH, open_after_iteration.
  - rewrite seq_S, filter_app, filter_singleton; [|exact []]. simpl.
    destruct (close_failed c n); simpl; [done|by rewrite app_nil_r].
  - intros [_ Hn%elem_of_seq]%list_elem_of_filter. lia.
Qed.

Lemma open_handles_probe :
  open_handles (snd the_probe) =
  filter (λ i, close_failed c i) (seq 0 (attempts (snd the_probe))).
Proof.
  rewrite attempts_probe, probe_spec.
  destruct (first_stop c max_retries) as [k|]; simpl.
  - apply open_handles_prefix.
  - unfold open_handles. rewrite open_after_app. apply open_handles_prefix.
Qed.
End Handles.

(** C4, as the code has it.  When the call returns [True], the last three
    events of the run are the opening of a connection, the [close()] of that
    same connection, which returned, and the success line: the close comes
    after the open and before the message and the return, and that
    connection is not open afterwards.  However the call ends, the
    connections open at the end are exactly those of the attempts whose
    [close()] raised; on a run in which no [close()] raised, none is
    open. *)
Theorem C4_open_handles (max_retries : nat) (retry_interval : Z) (c : client) :
  (fst (probe max_retries retry_interval c) = Return true →
   ∃ pre h,
     snd (probe max_retries retry_interval c) =
       pre ++ [EConnect postgres_kw (inl h); EClose h None; EPrint ready_line] ∧
     h ∉ open_handles (snd (probe max_retries retry_interval c))) ∧
  open_handles (snd (probe max_retries retry_interval c)) =
    filter (λ i, close_failed c i)
           (seq 0 (attempts (snd (probe max_retries retry_interval c)))) ∧
  ((∀ i, i < attempts (snd (probe max_retries retry_interval c)) →
         close_failed c i = false) →
   open_handles (snd (probe max_retries retry_interval c)) = []).
Proof.
  split; [|split].
  - rewrite open_handles_probe, probe_spec.
    destruct (first_stop c max_retries) as [k|] eqn:E; [|done].
    apply first_stop_Some in E as (_ & Hk & _). simpl.
    rewrite result_stop by done. rewrite prefix_S.
    unfold iteration_trace. destruct (outcome c k) eqn:Ho; [|done..].
    intros _. exists (iterations_trace max_retries retry_interval c k), k.
    split; [done|].
    intros [Hf _]%list_elem_of_filter. unfold close_failed in Hf.
    by rewrite Ho in Hf.
  - apply open_handles_probe.
  - intros H. rewrite open_handles_probe.
    induction (attempts (snd (probe max_retries retry_interval c))) as [|n IH];
      [done|].
    rewrite seq_S, filter_app, IH by (intros; apply H; lia).
    rewrite filter_singleton_False; [done|exact []|]. rewrite H by lia. exact id.
Qed.

Lemma C4_open_handles_witness :
  fst (wait_for_postgres (up_after 2)) = Return true ∧
  (∀ i, i < attempts (snd (wait_for_postgres (up_after 2))) →
        close_failed (up_after 2) i = false) ∧
  open_handles (snd (wait_for_postgres (up_after 2))) = [].
Proof.
  assert (∀ i, i < attempts (snd (wait_for_postgres (up_after 2))) →
               close_failed (up_after 2) i = false) as H.
  { intros i _. unfold close_failed, outcome. simpl.
    by destruct (i <? 2). }
  split; [reflexivity|]. split; [exact H|].
  exact (proj2 (proj2 (C4_open_handles 30 2 (up_after 2))) H).
Defined.

(** C4 as the specification words it fails.  Against a client whose first
    [close()] raises [OperationalError], [wait_for_postgres] returns [True]
    with connection 0 opened and never closed; against one whose [close()]
    always raises, it returns [False] with all 30 connections open. *)
Lemma C4_counterexample :
  (wait_for_postgres first_close_fails =
     (Return true,
      [EConnect postgres_kw (inl 0); EClose 0 (Some OperationalError);
       EPrint "Waiting for PostgreSQL... (attempt 1/30)"; ESleep 2;
       EConnect postgres_kw (inl 1); EClose 1 None; EPrint ready_line]) ∧
   open_handles (snd (wait_for_postgres first_close_fails)) = [0]) ∧
  (fst (wait_for_postgres close_always_fails) = Return false ∧
   open_handles (snd (wait_for_postgres close_always_fails)) = seq 0 30).
Proof. vm_compute. repeat split. Qed.

(** ** The console *)

Lemma waiting_line_not_ready (n i : nat) : waiting_line i n ≠ ready_line.
Proof. unfold waiting_line. simpl. discriminate. Qed.

Lemma waiting_line_not_failed (n i : nat) : waiting_line i n ≠ failed_line.
Proof. unfold waiting_line. simpl. discriminate. Qed.

Lemma printed_app (line : string) (t u : list event) :
  printed line (t ++ u) = printed line t + printed line u.
Proof. unfold printed. by rewrite console_app, filter_app, length_app. Qed.

Lemma filter_waiting_lines (line : string) (n : nat) (l : list nat) :
  (∀ i, waiting_line i n ≠ line) →
  filter (λ x, x = line) ((λ i, waiting_line i n) <$> l) = [].
Proof.
  intros H. induction l as [|i l IH]; [done|].
  rewrite fmap_cons, filter_cons_False by apply H. exact IH.
Qed.

(** C5.  The console shows, in this order: one line
    [Waiting for PostgreSQL... (attempt X/Y)] for every attempt that ended
    in a caught [OperationalError], with [X] the number of that attempt
    counted from 1 and [Y] the bound; then [PostgreSQL is ready!] if the
    call returns [True], or [Failed to connect to PostgreSQL] if it returns
    [False].  The success line is printed once when the call returns [True]
    and never otherwise; the failure line once when it returns [False] and
    never otherwise. *)
Theorem C5_console_lines (max_retries : nat) (retry_interval : Z) (c : client) :
  console (snd (probe max_retries retry_interval c)) =
    ((λ i, "Waiting for PostgreSQL... (attempt " +:+ pretty (i + 1) +:+ "/"
             +:+ pretty max_retries +:+ ")")
       <$> failed_attempts c (snd (probe max_retries retry_interval c)))
    ++ final_lines (fst (probe max_retries retry_interval c)) ∧
  printed ready_line (snd (probe max_retries retry_interval c)) =
    (match fst (probe max_retries retry_interval c) with
     | Return true => 1 | _ => 0 end) ∧
  printed failed_line (snd (probe max_retries retry_interval c)) =
    (match fst (probe max_retries retry_interval c) with
     | Return false => 1 | _ => 0 end).
Proof.
  pose proof (console_probe max_retries retry_interval c) as Hc.
  split; [|split].
  - by rewrite failed_attempts_probe.
  - unfold printed. rewrite Hc, filter_app, length_app, filter_waiting_lines
      by apply waiting_line_not_ready.
    by destruct (fst (probe max_retries retry_interval c)) as [[]| |].
  - unfold printed. rewrite Hc, filter_app, length_app, filter_waiting_lines
      by apply waiting_line_not_failed.
    by destruct (fst (probe max_retries retry_interval c)) as [[]| |].
Qed.

(** ** Termination and the attempt counter *)

Section MachineFacts.
Variable max_retries : nat.
Variable retry_interval : Z.
Variable c : client.

Local Abbreviation prefix := (iterations_trace max_retries retry_interval c).
Local Abbreviation the_probe := (probe max_retries retry_interval c).
Local Abbreviation machine := (run max_retries retry_interval c).

(** A step that stays in the loop has run one iteration within the bound
    and has moved the counter up by exactly one. *)
Lemma step_counter (a a' : nat) (t t' : list event) :
  step max_retries retry_interval c (Looping a t) = Looping a' t' →
  a < max_retries ∧ a' = S a.
Proof.
  simpl. destruct (Nat.ltb_spec a max_retries) as [Hlt|]; [|done].
  destruct (iteration _ _ _ a t) as [[[]|b|e] u]; [|done..].
  by intros [= <- _].
Qed.

Lemma run_looping (j : nat) :
  j ≤ retries c max_retries → machine j = Looping j (prefix j).
Proof.
  induction j as [|j IH]; intros Hj; [done|].
  pose proof (retries_le max_retries c).
  unfold run in *. simpl. rewrite IH by lia. simpl.
  destruct (Nat.ltb_spec j max_retries) as [_|]; [|lia].
  rewrite (iteration_spec _ _ _ j) by apply attempts_prefix.
  rewrite iteration_completion_retried by (apply (retries_retried max_retries); lia).
  by rewrite prefix_S.
Qed.

(** The number of steps after which the machine is done. *)
Lemma run_done :
  machine (match first_stop c max_retries with
           | None => S max_retries
           | Some k => S k
           end) = Done (fst the_probe) (snd the_probe).
Proof.
  pose proof run_looping as Hl. revert Hl.
  rewrite probe_spec. unfold retries, run.
  destruct (first_stop c max_retries) as [k|] eqn:E; simpl; intros Hl.
  - rewrite Hl by done. simpl.
    apply first_stop_Some in E as (Hk & Hstop & _).
    destruct (Nat.ltb_spec k max_retries) as [_|]; [|lia].
    rewrite (iteration_spec _ _ _ k) by apply attempts_prefix.
    rewrite <- prefix_S.
    pose proof (iteration_completion_stop c k Hstop).
    by destruct (iteration_completion c k) as [[]| |].
  - rewrite Hl by done. simpl. by rewrite Nat.ltb_irrefl.
Qed.
End MachineFacts.

(** C6, as the code has it.  For every client the loop comes to an end
    within [max_retries] iterations.  Before it does, the counter after [j]
    iterations is exactly [j]: each iteration moves it up by one, it never
    goes down, and it never exceeds [max_retries].  The loop is left in one
    of three ways: by the [return True] of a successful attempt, by
    exhausting the range (the call then returns [False]), or by an
    exception other than [OperationalError] raised in an attempt. *)
Theorem C6_loop_terminates (max_retries : nat) (retry_interval : Z) (c : client) :
  ∃ n,
    n ≤ S max_retries ∧
    run max_retries retry_interval c n =
      Done (fst (probe max_retries retry_interval c))
           (snd (probe max_retries retry_interval c)) ∧
    (∀ j, j < n →
          j ≤ max_retries ∧
          ∃ t, run max_retries retry_interval c j = Looping j t) ∧
    ((fst (probe max_retries retry_interval c) = Return true ∧ n ≤ max_retries) ∨
     (fst (probe max_retries retry_interval c) = Return false ∧ n = S max_retries) ∨
     (∃ e, fst (probe max_retries retry_interval c) = Raise e ∧
           isinstance_OperationalError e = false ∧ n ≤ max_retries)).
Proof.
  pose proof (run_done max_retries retry_interval c) as Hd.
  pose proof (run_looping max_retries retry_interval c) as Hl.
  pose proof (probe_spec max_retries retry_interval c) as Hp.
  unfold retries in Hl.
  destruct (first_stop c max_retries) as [k|] eqn:E; simpl in Hl.
  - pose proof E as (Hk & Hstop & _)%first_stop_Some.
    exists (S k). split; [lia|]. split; [done|]. split.
    + intros j Hj. split; [lia|]. eexists. apply Hl. lia.
    + rewrite Hp. simpl. rewrite result_stop by done.
      revert Hstop. unfold retried. destruct (outcome c k) as [|e|e].
      * intros _. left. split; [done|lia].
      * intros He. right; right. exists e. split; [done|]. split; [done|lia].
      * intros He. right; right. exists e. split; [done|]. split; [done|lia].
  - exists (S max_retries). split; [done|]. split; [done|]. split.
    + intros j Hj. split; [lia|]. eexists. apply Hl. lia.
    + right; left. by rewrite Hp.
Qed.

(** C6 as the specification words it fails on its last part.  When the
    server is down once and the second [psycopg2.connect] is interrupted,
    the loop is left after two iterations, neither by success nor by
    exhausting the counter: the interrupt goes to the caller. *)
Lemma C6_counterexample :
  wait_for_postgres down_then_interrupted =
    (Raise (NonOperational "KeyboardInterrupt"),
     [EConnect postgres_kw (inr OperationalError);
      EPrint "Waiting for PostgreSQL... (attempt 1/30)"; ESleep 2;
      EConnect postgres_kw (inr (NonOperational "KeyboardInterrupt"))]) ∧
  run 30 2 down_then_interrupted 2 =
    Done (fst (wait_for_postgres down_then_interrupted))
         (snd (wait_for_postgres down_then_interrupted)) ∧
  ¬ (fst (wait_for_postgres down_then_interrupted) = Return true ∨
     attempts (snd (wait_for_postgres down_then_interrupted)) = 30).
Proof.
  split; [vm_compute; reflexivity|]. split; [vm_compute; reflexivity|].
  vm_compute. intros [H|H]; discriminate.
Qed.

(** ** The entry point *)

(** C7.  The entry point drops the value of [wait_for_postgres()] and sets
    no exit status of its own: whenever the call returns, with [True] or
    with [False], the script exits with status 0, having done nothing
    beyond what the call did.  So two runs, one ready and one not, exit
    with the same status. *)
Theorem C7_exit_status_ignores_result (c1 c2 : client) (b1 b2 : bool) :
  fst (wait_for_postgres c1) = Return b1 →
  fst (wait_for_postgres c2) = Return b2 →
  fst (main c1) = 0%Z ∧ fst (main c2) = 0%Z ∧
  fst (main c1) = fst (main c2) ∧
  snd (main c1) = snd (wait_for_postgres c1) ∧
  snd (main c2) = snd (wait_for_postgres c2).
Proof.
  unfold main. intros H1 H2.
  destruct (wait_for_postgres c1) as [r1 t1], (wait_for_postgres c2) as [r2 t2].
  simpl in *. by subst.
Qed.

Lemma C7_exit_status_ignores_result_witness :
  fst (wait_for_postgres always_up) = Return true ∧
  fst (wait_for_postgres always_down) = Return false ∧
  fst (main always_up) = 0%Z ∧ fst (main always_down) = 0%Z ∧
  fst (main always_up) = fst (main always_down).
Proof.
  assert (fst (wait_for_postgres always_up) = Return true) as H1 by reflexivity.
  assert (fst (wait_for_postgres always_down) = Return false) as H2
    by (vm_compute; reflexivity).
  destruct (C7_exit_status_ignores_result always_up always_down true false H1 H2)
    as (E1 & E2 & E & _).
  split; [exact H1|]. split; [exact H2|]. split; [exact E1|].
  split; [exact E2|exact E].
Defined.

(** ** Dependence on the client *)

Section Agreement.
Variable max_retries : nat.
Variable retry_interval : Z.
Variables c1 c2 : client.

Lemma retried_ext (i : nat) :
  outcome c1 i = outcome c2 i → retried c1 i = retried c2 i.
Proof. unfold retried. by intros ->. Qed.

Lemma first_stop_ext (n : nat) :
  (∀ i, i < n → outcome c1 i = outcome c2 i) →
  first_stop c1 n = first_stop c2 n.
Proof.
  induction n as [|n IH]; intros H; [done|]. simpl.
  rewrite IH by (intros; apply H; lia).
  by rewrite (retried_ext n) by (apply H; lia).
Qed.

Lemma iterations_trace_ext (n : nat) :
  (∀ i, i < n → outcome c1 i = outcome c2 i) →
  iterations_trace max_retries retry_interval c1 n =
  iterations_trace max_retries retry_interval c2 n.
Proof.
  induction n as [|n IH]; intros H; [done|].
  rewrite !prefix_S, IH by (intros; apply H; lia).
  unfold iteration_trace. by rewrite H by lia.
Qed.

Lemma probe_ext :
  (∀ i, i < max_retries → outcome c1 i = outcome c2 i) →
  probe max_retries retry_interval c1 = probe max_retries retry_interval c2.
Proof.
  intros H. rewrite !probe_spec, <- (first_stop_ext _ H).
  destruct (first_stop c1 max_retries) as [k|] eqn:E.
  - apply first_stop_Some in E as (Hk & _).
    rewrite iterations_trace_ext by (intros; apply H; lia).
    unfold iteration_completion. by rewrite H.
  - by rewrite iterations_trace_ext.
Qed.
End Agreement.

(** C8.  The call depends on the client only through the outcomes of the
    attempts within the bound.  Two clients that give the same outcome to
    each of the first [max_retries] attempts, whatever else they would do,
    lead to the same return value, the same number of connection attempts,
    the same pauses and the same console lines; indeed to the same run,
    event for event. *)
Theorem C8_same_outcomes_same_run
    (max_retries : nat) (retry_interval : Z) (c1 c2 : client) :
  (∀ i, i < max_retries → outcome c1 i = outcome c2 i) →
  fst (probe max_retries retry_interval c1) =
    fst (probe max_retries retry_interval c2) ∧
  attempts (snd (probe max_retries retry_interval c1)) =
    attempts (snd (probe max_retries retry_interval c2)) ∧
  pauses (snd (probe max_retries retry_interval c1)) =
    pauses (snd (probe max_retries retry_interval c2)) ∧
  console (snd (probe max_retries retry_interval c1)) =
    console (snd (probe max_retries retry_interval c2)) ∧
  snd (probe max_retries retry_interval c1) =
    snd (probe max_retries retry_interval c2).
Proof. intros H. by rewrite (probe_ext _ retry_interval _ _ H). Qed.

Lemma C8_same_outcomes_same_run_witness :
  (∀ i, i < 30 → outcome (up_after 2) i = outcome up_after_2_then_gone i) ∧
  connect_raises (up_after 2) 30 ≠ connect_raises up_after_2_then_gone 30 ∧
  close_raises (up_after 2) 0 ≠ close_raises up_after_2_then_gone 0 ∧
  wait_for_postgres (up_after 2) = wait_for_postgres up_after_2_then_gone.
Proof.
  assert (∀ i, i < 30 → outcome (up_after 2) i = outcome up_after_2_then_gone i)
    as H.
  { intros i Hi. do 30 (destruct i as [|i]; [reflexivity|]). lia. }
  split; [exact H|]. split; [discriminate|]. split; [discriminate|].
  destruct (C8_same_outcomes_same_run 30 2 _ _ H) as (Hr & _ & _ & _ & Ht).
  apply injective_projections; [exact Hr|exact Ht].
Defined.

(** ** Attempt numbers *)

(** C9.  In a run of [wait_for_postgres], the [i]-th failed attempt, for
    [i] from 1 to the number of failed attempts, is the iteration whose
    0-based loop variable is [i - 1], and the [i]-th console line reads
    [Waiting for PostgreSQL... (attempt i/30)]: the numbers shown start at
    1 and go up by one, against the fixed 30.  There are at most 30 failed
    attempts. *)
Theorem C9_attempt_numbers (c : client) (i : nat) :
  1 ≤ i ≤ length (failed_attempts c (snd (wait_for_postgres c))) →
  failed_attempts c (snd (wait_for_postgres c)) !! (i - 1) = Some (i - 1) ∧
  console (snd (wait_for_postgres c)) !! (i - 1) =
    Some ("Waiting for PostgreSQL... (attempt " +:+ pretty i +:+ "/30)") ∧
  length (failed_attempts c (snd (wait_for_postgres c))) ≤ 30.
Proof.
  unfold wait_for_postgres.
  rewrite failed_attempts_probe, length_seq, console_probe.
  intros Hi. split; [|split].
  - rewrite lookup_seq_lt by lia. done.
  - rewrite lookup_app_l by (rewrite length_fmap, length_seq; lia).
    rewrite list_lookup_fmap, lookup_seq_lt by lia. simpl.
    unfold waiting_line. by replace (i - 1 + 1) with i by lia.
  - apply retries_le.
Qed.

Lemma C9_attempt_numbers_witness :
  1 ≤ 2 ≤ length (failed_attempts (up_after 2) (snd (wait_for_postgres (up_after 2)))) ∧
  console (snd (wait_for_postgres (up_after 2))) !! 1 =
    Some "Waiting for PostgreSQL... (attempt 2/30)".
Proof.
  assert (1 ≤ 2 ≤ length (failed_attempts (up_after 2)
                            (snd (wait_for_postgres (up_after 2))))) as H
    by (vm_compute; lia).
  split; [exact H|].
  exact (proj1 (proj2 (C9_attempt_numbers (up_after 2) 2 H))).
Defined.

(** ** A [close()] that raises *)

Section CloseFailure.
Variable max_retries : nat.
Variable retry_interval : Z.
Variable c : client.

Local Abbreviation events := (iteration_trace max_retries retry_interval c).
Local Abbreviation prefix := (iterations_trace max_retries retry_interval c).
Local Abbreviation the_probe := (probe max_retries retry_interval c).

Lemma prefix_split (h m : nat) :
  h < m → ∃ post, prefix m = prefix h ++ events h ++ post.
Proof.
  induction m as [|m IH]; intros Hh; [lia|].
  rewrite prefix_S. destruct (decide (h = m)) as [->|Hne].
  - exists []. by rewrite app_nil_r.
  - destruct IH as [post ->]; [lia|].
    exists (post ++ events m). by rewrite <- !app_assoc.
Qed.

Lemma trace_split (h : nat) :
  h < attempts (snd the_probe) →
  ∃ post, snd the_probe = prefix h ++ events h ++ post.
Proof.
  rewrite attempts_probe, probe_spec.
  destruct (first_stop c max_retries) as [k|]; simpl; intros Hh.
  - by apply prefix_split.
  - destruct (prefix_split h max_retries Hh) as [post ->].
    exists (post ++ [EPrint failed_line]). by rewrite <- !app_assoc.
Qed.

Lemma closes_of_iteration (h i : nat) :
  closes_of h (events i) =
  if decide (i = h)
  then match outcome c i with ConnectFails _ => 0 | _ => 1 end
  else 0.
Proof.
  unfold closes_of, iteration_trace, handler_trace.
  destruct (outcome c i) as [|e|e]; simpl.
  - rewrite filter_cons_False by exact id. rewrite filter_cons. simpl.
    rewrite filter_cons_False by exact id.
    destruct (decide (i = h)) as [->|Hne].
    + by rewrite bool_decide_eq_true_2.
    + by rewrite bool_decide_eq_false_2.
  - rewrite filter_cons_False by exact id.
    destruct (isinstance_OperationalError e), (decide (i = h)); done.
  - rewrite filter_cons_False by exact id. rewrite filter_cons. simpl.
    destruct (decide (i = h)) as [->|Hne].
    + rewrite bool_decide_eq_true_2 by done.
      by destruct (isinstance_OperationalError e).
    + rewrite bool_decide_eq_false_2 by done.
      by destruct (isinstance_OperationalError e).
Qed.

Lemma closes_of_prefix (h n : nat) :
  closes_of h (prefix n) =
  if decide (h < n)
  then match outcome c h with ConnectFails _ => 0 | _ => 1 end
  else 0.
Proof.
  induction n as [|n IH]; [done|].
  rewrite prefix_S, closes_of_app, IH, closes_of_iteration.
  destruct (decide (n = h)) as [->|Hne].
  - rewrite decide_False, decide_True by lia. done.
  - destruct (decide (h < n)).
    + rewrite decide_True by lia. lia.
    + rewrite decide_False by lia. done.
Qed.

Lemma closes_of_probe (h : nat) :
  h < attempts (snd the_probe) →
  closes_of h (snd the_probe) =
  match outcome c h with ConnectFails _ => 0 | _ => 1 end.
Proof.
  rewrite attempts_probe, probe_spec.
  destruct (first_stop c max_retries) as [k|]; simpl; intros Hh.
  - by rewrite closes_of_prefix, decide_True.
  - rewrite closes_of_app, closes_of_prefix, decide_True by done.
    change (closes_of h [EPrint failed_line]) with 0. lia.
Qed.
End CloseFailure.

(** C10.  Take an attempt [h] that is made in the run and whose connection
    is opened but whose [close()] raises [OperationalError].  The run then
    contains, one after the other, the opening of connection [h], the
    [close()] that raised, the progress line of attempt [h] and the pause:
    the attempt is handled as a failed one although the connection was
    established.  The next attempt is made if the bound allows one; if the
    call returns [True], it does so for a later attempt.  The probe calls
    [close()] on [h] just that once, and [h] is still open when the call
    ends. *)
Theorem C10_close_failure_is_retried
    (max_retries : nat) (retry_interval : Z) (c : client) (h : nat) :
  h < attempts (snd (probe max_retries retry_interval c)) →
  outcome c h = CloseFails OperationalError →
  (∃ pre post,
     snd (probe max_retries retry_interval c) =
       pre ++ [EConnect postgres_kw (inl h); EClose h (Some OperationalError);
               EPrint (waiting_line h max_retries); ESleep retry_interval]
           ++ post ∧
     attempts pre = h) ∧
  (S h < max_retries →
   S h < attempts (snd (probe max_retries retry_interval c))) ∧
  (fst (probe max_retries retry_interval c) = Return true →
   S h < attempts (snd (probe max_retries retry_interval c))) ∧
  closes_of h (snd (probe max_retries retry_interval c)) = 1 ∧
  h ∈ open_handles (snd (probe max_retries retry_interval c)).
Proof.
  intros Hmade Ho.
  assert (retried c h = true) as Hr by (unfold retried; by rewrite Ho).
  split; [|split; [|split; [|split]]].
  - destruct (trace_split _ retry_interval _ _ Hmade) as [post ->].
    exists (iterations_trace max_retries retry_interval c h), post.
    split; [|apply attempts_prefix].
    unfold iteration_trace, handler_trace. by rewrite Ho.
  - intros Hnext. apply attempt_made. split; [done|]. intros i Hi.
    destruct (decide (i = h)) as [->|]; [done|].
    apply (attempt_made max_retries retry_interval c h) in Hmade as [_ Hpre].
    apply Hpre. lia.
  - pose proof (retried_attempt_lt_retries _ retry_interval _ _ Hmade Hr) as Hlt.
    revert Hlt. rewrite attempts_probe, probe_spec. unfold retries.
    destruct (first_stop c max_retries) as [k|]; simpl; [lia|done].
  - rewrite closes_of_probe by done. by rewrite Ho.
  - rewrite open_handles_probe. apply list_elem_of_filter. split.
    + unfold close_failed. by rewrite Ho.
    + apply elem_of_seq. lia.
Qed.

Lemma C10_close_failure_is_retried_witness :
  0 < attempts (snd (wait_for_postgres first_close_fails)) ∧
  outcome first_close_fails 0 = CloseFails OperationalError ∧
  closes_of 0 (snd (wait_for_postgres first_close_fails)) = 1 ∧
  0 ∈ open_handles (snd (wait_for_postgres first_close_fails)).
Proof.
  assert (0 < attempts (snd (wait_for_postgres first_close_fails))) as H1
    by (vm_compute; lia).
  assert (outcome first_close_fails 0 = CloseFails OperationalError) as H2
    by reflexivity.
  split; [exact H1|]. split; [exact H2|].
  destruct (C10_close_failure_is_retried 30 2 first_close_fails 0 H1 H2)
    as (_ & _ & _ & Hc & Ho).
  split; [exact Hc|exact Ho].
Defined.

(** * Further properties of the code *)

(** ** What the result says about the attempts *)

Lemma first_stop_iff (c : client) (n k : nat) :
  first_stop c n = Some k ↔
  k < n ∧ retried c k = false ∧ ∀ i, i < k → retried c i = true.
Proof.
  split; [apply first_stop_Some|].
  intros (? & ? & ?). by apply first_stop_intro.
Qed.

Lemma fst_probe (max_retries : nat) (retry_interval : Z) (c : client) :
  fst (probe max_retries retry_interval c) =
  match first_stop c max_retries with
  | None => Return false
  | Some k =>
      match outcome c k with
      | Succeeds => Return true
      | ConnectFails e | CloseFails e => Raise e
      end
  end.
Proof.
  rewrite probe_spec. destruct (first_stop c max_retries) as [k|] eqn:E; [|done].
  apply first_stop_Some in E as (_ & Hk & _). simpl. by apply result_stop.
Qed.

(** X1.  The value of the call tells the caller exactly what the attempts
    did.  It is [True] if and only if some attempt within the bound opened
    and closed its connection after nothing but caught failures; [False] if
    and only if every attempt within the bound ended in a caught
    [OperationalError]; and the call raises [e] if and only if, after
    nothing but caught failures, an attempt within the bound raised [e]
    and [e] is not an [OperationalError].  The call never falls off its end
    without a value. *)
Theorem X1_result_characterised
    (max_retries : nat) (retry_interval : Z) (c : client) :
  fst (probe max_retries retry_interval c) ≠ ReturnNone ∧
  (fst (probe max_retries retry_interval c) = Return true ↔
   ∃ k, k < max_retries ∧ (∀ i, i < k → retried c i = true) ∧
        outcome c k = Succeeds) ∧
  (fst (probe max_retries retry_interval c) = Return false ↔
   ∀ i, i < max_retries → retried c i = true) ∧
  (∀ e, fst (probe max_retries retry_interval c) = Raise e ↔
        ∃ k, k < max_retries ∧ (∀ i, i < k → retried c i = true) ∧
             (outcome c k = ConnectFails e ∨ outcome c k = CloseFails e) ∧
             isinstance_OperationalError e = false).
Proof.
  rewrite fst_probe.
  destruct (first_stop c max_retries) as [k|] eqn:E.
  - pose proof E as (Hk & Hstop & Hpre)%first_stop_Some.
    assert (∀ k', k' < max_retries → (∀ i, i < k' → retried c i = true) →
                  retried c k' = false → k' = k) as Huniq.
    { intros k' ? ? ?. assert (first_stop c max_retries = Some k') as E'
        by (by apply first_stop_intro). congruence. }
    unfold retried in Hstop, Huniq.
    split; [by destruct (outcome c k)|]. split; [|split].
    + split.
      * intros Hr. exists k. split; [done|]. split; [done|].
        by destruct (outcome c k).
      * intros (k' & ? & ? & Ho). rewrite <- (Huniq k'); [by rewrite Ho|done..|].
        by rewrite Ho.
    + split; [by destruct (outcome c k)|].
      intros Hall%first_stop_None. congruence.
    + intros e. split.
      * intros Hr. exists k. split; [done|]. split; [done|].
        destruct (outcome c k) as [|e'|e']; [done|..];
          injection Hr as ->; (split; [by auto|done]).
      * intros (k' & ? & ? & Ho & He).
        assert (k' = k) as ->.
        { apply Huniq; [done..|]. by destruct Ho as [-> | ->]. }
        by destruct Ho as [-> | ->].
  - pose proof (first_stop_None_elim _ _ E) as Hall.
    split; [done|]. split; [|split].
    + split; [done|]. intros (k & Hk & _ & Ho).
      specialize (Hall k Hk). unfold retried in Hall. by rewrite Ho in Hall.
    + split; [by intros _|done].
    + intros e. split; [done|]. intros (k & Hk & _ & Ho & He).
      specialize (Hall k Hk). unfold retried in Hall.
      destruct Ho as [Ho|Ho]; rewrite Ho in Hall; congruence.
Qed.

(** ** Counting attempts and pauses *)

(** X2.  In every run the number of calls of [psycopg2.connect] is at most
    [max_retries], and at least one when the bound is positive.  Every
    pause lasts [retry_interval] seconds.  There is one pause for each
    attempt except the one that ends the call by [return True] or by an
    exception: the attempts are as many as the pauses when the call
    returns [False], and one more otherwise. *)
Theorem X2_attempts_and_pauses
    (max_retries : nat) (retry_interval : Z) (c : client) :
  attempts (snd (probe max_retries retry_interval c)) ≤ max_retries ∧
  (0 < max_retries → 1 ≤ attempts (snd (probe max_retries retry_interval c))) ∧
  attempts (snd (probe max_retries retry_interval c)) =
    length (pauses (snd (probe max_retries retry_interval c))) +
    (match fst (probe max_retries retry_interval c) with
     | Return false => 0
     | _ => 1
     end) ∧
  pauses (snd (probe max_retries retry_interval c)) =
    replicate (length (pauses (snd (probe max_retries retry_interval c))))
              retry_interval.
Proof.
  rewrite attempts_probe, pauses_probe, fst_probe, length_replicate.
  unfold retries.
  destruct (first_stop c max_retries) as [k|] eqn:E; simpl.
  - apply first_stop_Some in E as (Hk & Hstop & _).
    split; [lia|]. split; [lia|]. split; [|done].
    destruct (outcome c k); lia.
  - split; [lia|]. split; [lia|]. split; [lia|done].
Qed.

Lemma total_sleep_replicate (n : nat) (s : Z) (t : list event) :
  pauses t = replicate n s → total_sleep t = (s * Z.of_nat n)%Z.
Proof.
  unfold total_sleep. intros ->. induction n as [|n IH]; simpl; [lia|].
  rewrite IH. lia.
Qed.

(** X3.  [wait_for_postgres] spends in [time.sleep] two seconds for each
    attempt that ended in a caught [OperationalError], and so never more
    than 60 seconds in all. *)
Theorem X3_total_sleep (c : client) :
  total_sleep (snd (wait_for_postgres c)) =
    (2 * Z.of_nat (length (failed_attempts c (snd (wait_for_postgres c)))))%Z ∧
  (0 ≤ total_sleep (snd (wait_for_postgres c)) ≤ 60)%Z.
Proof.
  unfold wait_for_postgres.
  rewrite failed_attempts_probe, length_seq.
  rewrite (total_sleep_replicate _ _ _ (pauses_probe 30 2 c)).
  pose proof (retries_le 30 c). split; lia.
Qed.

(** ** How long a connection is held *)

Lemma closes_at_once_app (p : option handle) (t u : list event) :
  closes_at_once p t = true →
  closes_at_once p (t ++ u) = closes_at_once None u.
Proof.
  revert p. induction t as [|ev t IH]; intros p; simpl.
  - by destruct p.
  - destruct ev as [kw [h|e]|h r|l|s], p as [h'|]; try done; try apply IH.
    intros [-> Ht]%andb_true_iff. simpl. by apply IH.
Qed.

Lemma closes_at_once_connect
    (p : option handle) (pre : list event) (kw : conninfo) (h : handle)
    (post : list event) :
  closes_at_once p (pre ++ EConnect kw (inl h) :: post) = true →
  ∃ r post', post = EClose h r :: post'.
Proof.
  revert p. induction pre as [|ev pre IH]; intros p; simpl.
  - destruct p; [done|].
    destruct post as [|[kw' [h'|e]|h' r|l|s] post']; simpl; try done.
    intros [->%bool_decide_eq_true _]%andb_true_iff. by eexists _, _.
  - destruct ev as [kw' [h'|e]|h' r|l|s], p as [h''|]; try done; try apply IH.
    intros [_ Ht]%andb_true_iff. by eapply IH.
Qed.

Lemma closes_at_once_close
    (p : option handle) (pre : list event) (h : handle) (r : option exn)
    (post : list event) :
  closes_at_once p (pre ++ EClose h r :: post) = true →
  (pre = [] ∧ p = Some h) ∨ ∃ pre' kw, pre = pre' ++ [EConnect kw (inl h)].
Proof.
  revert p. induction pre as [|ev pre IH]; intros p; simpl.
  - destruct p as [h'|]; [|done].
    intros [->%bool_decide_eq_true _]%andb_true_iff. by left.
  - intros H. right.
    assert (∀ p', closes_at_once p' (pre ++ EClose h r :: post) = true →
                  (p' = Some h → ∃ kw, ev = EConnect kw (inl h)) →
                  ∃ pre' kw, ev :: pre = pre' ++ [EConnect kw (inl h)]) as Hstep.
    { intros p' Hp' Hev. destruct (IH p' Hp') as [[-> ->]|(pre' & kw & ->)].
      - destruct (Hev eq_refl) as [kw ->]. by exists [], kw.
      - by exists (ev :: pre'), kw. }
    destruct ev as [kw' [h'|e]|h' r'|l|s], p as [h''|]; try done.
    + apply (Hstep (Some h') H). intros [= ->]. by exists kw'.
    + by apply (Hstep None H).
    + apply andb_true_iff in H as [_ H]. by apply (Hstep None H).
    + by apply (Hstep None H).
    + by apply (Hstep None H).
Qed.

Section Lifetime.
Variable max_retries : nat.
Variable retry_interval : Z.
Variable c : client.

Lemma closes_at_once_iteration (i : nat) :
  closes_at_once None (iteration_trace max_retries retry_interval c i) = true.
Proof.
  unfold iteration_trace, handler_trace.
  destruct (outcome c i) as [|e|e]; simpl.
  - by rewrite bool_decide_eq_true_2.
  - by destruct (isinstance_OperationalError e).
  - rewrite bool_decide_eq_true_2 by done.
    by destruct (isinstance_OperationalError e).
Qed.

Lemma closes_at_once_prefix (n : nat) :
  closes_at_once None (iterations_trace max_retries retry_interval c n) = true.
Proof.
  induction n as [|n IH]; [done|].
  rewrite prefix_S, closes_at_once_app by done. apply closes_at_once_iteration.
Qed.

Lemma closes_at_once_probe :
  closes_at_once None (snd (probe max_retries retry_interval c)) = true.
Proof.
  rewrite probe_spec. destruct (first_stop c max_retries) as [k|]; simpl.
  - apply closes_at_once_prefix.
  - by rewrite closes_at_once_app by apply closes_at_once_prefix.
Qed.
End Lifetime.

(** X4.  The probe holds a connection only for the instant between opening
    and closing it.  In every run, a [psycopg2.connect] that returns a
    connection is followed at once by the [close()] of that connection:
    nothing is printed, no pause is taken and no other connection is opened
    in between.  And [close()] is called nowhere else: every [close()] comes
    directly after the [connect] that returned its connection. *)
Theorem X4_connection_closed_at_once
    (max_retries : nat) (retry_interval : Z) (c : client) :
  (∀ pre kw h post,
     snd (probe max_retries retry_interval c) =
       pre ++ EConnect kw (inl h) :: post →
     ∃ r post', post = EClose h r :: post') ∧
  (∀ pre h r post,
     snd (probe max_retries retry_interval c) = pre ++ EClose h r :: post →
     ∃ pre' kw, pre = pre' ++ [EConnect kw (inl h)]).
Proof.
  pose proof (closes_at_once_probe max_retries retry_interval c) as H.
  split.
  - intros pre kw h post E. rewrite E in H.
    by apply closes_at_once_connect in H.
  - intros pre h r post E. rewrite E in H.
    apply closes_at_once_close in H as [[_ [=]]|H]; done.
Qed.

(** ** Where the probe connects *)

Section Target.
Variable max_retries : nat.
Variable retry_interval : Z.
Variable c : client.

Local Abbreviation to_postgres :=
  (λ ev : event, ∀ kw r, ev = EConnect kw r → kw = postgres_kw).

Lemma to_postgres_iteration (i : nat) :
  Forall to_postgres (iteration_trace max_retries retry_interval c i).
Proof.
  unfold iteration_trace, handler_trace.
  destruct (outcome c i) as [|e|e]; [|destruct (isinstance_OperationalError e)..];
    repeat constructor; by intros kw r [=].
Qed.

Lemma to_postgres_prefix (n : nat) :
  Forall to_postgres (iterations_trace max_retries retry_interval c n).
Proof.
  induction n as [|n IH]; [constructor|].
  rewrite prefix_S. apply Forall_app. split; [done|apply to_postgres_iteration].
Qed.

Lemma to_postgres_probe :
  Forall to_postgres (snd (probe max_retries retry_interval c)).
Proof.
  rewrite probe_spec. destruct (first_stop c max_retries) as [k|]; simpl.
  - apply to_postgres_prefix.
  - apply Forall_app. split; [apply to_postgres_prefix|].
    by repeat constructor.
Qed.
End Target.

(** X5.  Every connection attempt of a run, the first as well as every
    retry, whether it succeeds or fails, goes to the same place with the
    same credentials: host [postgres], database [dbt_test], user [dbt_user],
    password [dbt_password]. *)
Theorem X5_every_attempt_same_target
    (max_retries : nat) (retry_interval : Z) (c : client)
    (kw : conninfo) (r : handle + exn) :
  EConnect kw r ∈ snd (probe max_retries retry_interval c) →
  host kw = "postgres" ∧ database kw = "dbt_test" ∧
  user kw = "dbt_user" ∧ password kw = "dbt_password".
Proof.
  intros Hin.
  pose proof (to_postgres_probe max_retries retry_interval c) as H.
  rewrite Forall_forall in H. by rewrite (H _ Hin kw r eq_refl).
Qed.

Lemma X5_every_attempt_same_target_witness :
  EConnect postgres_kw (inr OperationalError)
    ∈ snd (wait_for_postgres (up_after 2)) ∧
  host postgres_kw = "postgres" ∧ database postgres_kw = "dbt_test" ∧
  user postgres_kw = "dbt_user" ∧ password postgres_kw = "dbt_password".
Proof.
  assert (EConnect postgres_kw (inr OperationalError)
            ∈ snd (wait_for_postgres (up_after 2))) as H
    by (vm_compute; apply list_elem_of_here).
  split; [exact H|].
  exact (X5_every_attempt_same_target 30 2 (up_after 2) _ _ H).
Defined.

(** ** How much of the client the probe looks at *)

(** X6.  The probe asks nothing of the client beyond the attempts it makes.
    If a second client gives the same outcome as the first to every attempt
    made in the run against the first, the run against the second is the
    same run, with the same result: what either client would do after the
    attempt that ended the call is never looked at. *)
Theorem X6_only_attempts_made_matter
    (max_retries : nat) (retry_interval : Z) (c1 c2 : client) :
  (∀ i, i < attempts (snd (probe max_retries retry_interval c1)) →
        outcome c1 i = outcome c2 i) →
  probe max_retries retry_interval c1 = probe max_retries retry_interval c2.
Proof.
  rewrite attempts_probe.
  destruct (first_stop c1 max_retries) as [k|] eqn:E; intros H.
  - pose proof E as (Hk & Hstop & Hpre)%first_stop_Some.
    assert (first_stop c2 max_retries = Some k) as E2.
    { apply first_stop_intro; [done|..].
      - by rewrite <- (retried_ext c1 c2 k) by (apply H; lia).
      - intros i Hi. rewrite <- (retried_ext c1 c2 i) by (apply H; lia).
        by apply Hpre. }
    rewrite !probe_spec, E, E2.
    rewrite (iterations_trace_ext _ _ c1 c2 (S k)) by (intros; apply H; lia).
    unfold iteration_completion. by rewrite H by lia.
  - by apply probe_ext.
Qed.

Lemma X6_only_attempts_made_matter_witness :
  (∀ i, i < attempts (snd (wait_for_postgres (up_after 2))) →
        outcome (up_after 2) i = outcome up_after_2_then_broken i) ∧
  outcome (up_after 2) 3 ≠ outcome up_after_2_then_broken 3 ∧
  wait_for_postgres (up_after 2) = wait_for_postgres up_after_2_then_broken.
Proof.
  assert (∀ i, i < attempts (snd (wait_for_postgres (up_after 2))) →
               outcome (up_after 2) i = outcome up_after_2_then_broken i) as H.
  { intros i Hi. change (i < 3) in Hi.
    do 3 (destruct i as [|i]; [reflexivity|]). lia. }
  split; [exact H|]. split; [discriminate|].
  exact (X6_only_attempts_made_matter 30 2 _ _ H).
Defined.

(** ** The verdict comes last *)

(** X7.  When the call returns, the line that announces its result is the
    last thing it did: [PostgreSQL is ready!] for [True],
    [Failed to connect to PostgreSQL] for [False].  No pause and no
    connection attempt comes after the verdict; in particular the pause
    that follows the last failed attempt is taken before the failure is
    reported. *)
Theorem X7_verdict_is_last_event
    (max_retries : nat) (retry_interval : Z) (c : client) (b : bool) :
  fst (probe max_retries retry_interval c) = Return b →
  last (snd (probe max_retries retry_interval c)) =
    Some (EPrint (if b then ready_line else failed_line)) ∧
  (b = false → 0 < max_retries →
   ∃ pre, snd (probe max_retries retry_interval c) =
          pre ++ [ESleep retry_interval; EPrint failed_line]).
Proof.
  rewrite fst_probe, probe_spec.
  destruct (first_stop c max_retries) as [k|] eqn:E; simpl.
  - apply first_stop_Some in E as (_ & Hstop & _).
    rewrite prefix_S. unfold iteration_trace. unfold retried in Hstop.
    destruct (outcome c k) as [|e|e]; [|done..].
    intros [= <-]. split; [|done].
    apply last_Some.
    exists (iterations_trace max_retries retry_interval c k ++
            [EConnect postgres_kw (inl k); EClose k None]).
    by rewrite <- app_assoc.
  - intros [= <-]. split; [apply last_snoc|]. intros _ Hpos.
    destruct max_retries as [|n]; [lia|].
    rewrite prefix_S.
    assert (retried c n = true) as Hr by (eapply first_stop_None; [done|lia]).
    unfold iteration_trace, handler_trace. unfold retried in Hr.
    destruct (outcome c n) as [|e|e]; [done|..]; rewrite Hr.
    + exists (iterations_trace (S n) retry_interval c n ++
              [EConnect postgres_kw (inr e); EPrint (waiting_line n (S n))]).
      by rewrite <- !app_assoc.
    + exists (iterations_trace (S n) retry_interval c n ++
              [EConnect postgres_kw (inl n); EClose n (Some e);
               EPrint (waiting_line n (S n))]).
      by rewrite <- !app_assoc.
Qed.

Lemma X7_verdict_is_last_event_witness :
  fst (wait_for_postgres always_down) = Return false ∧
  last (snd (wait_for_postgres always_down)) = Some (EPrint failed_line) ∧
  ∃ pre, snd (wait_for_postgres always_down) =
         pre ++ [ESleep 2; EPrint failed_line].
Proof.
  assert (fst (wait_for_postgres always_down) = Return false) as H
    by (vm_compute; reflexivity).
  destruct (X7_verdict_is_last_event 30 2 always_down false H) as [Hl Hs].
  split; [exact H|]. split; [exact Hl|].
  apply Hs; [reflexivity|lia].
Defined.
